(** * Behavioral design patterns: the Command text editor and the
      Chain-of-Responsibility login pipeline

    A shallow embedding of [src/command_textEditor.ts] and
    [src/chainOfResponsibility_login.ts].

    - JavaScript strings are sequences of UTF-16 code units; [length] and
      [slice] count code units.  A Rocq [string] stands for such a sequence,
      one character per code unit.
    - [number] arguments that are used as character counts are modelled as
      [Z] (integral numbers).  The unary minus of the source is [Z.opp]; the
      JavaScript value [-0] is converted to the index [0] by [slice], which
      is what [Z.opp 0 = 0] gives.  [slice] truncates any other number to an
      integer and clamps it to the length, so every number acts as some
      [Z] does.
    - Objects that are mutated in place and held by reference (commands in
      the invoker's history, handlers linked by [setNext]) live in a store
      and are denoted by their index in it.  References come from the
      allocation functions, so an index outside the store does not arise;
      the functions are total and leave everything as it is there.
    - Property lookup on an object literal, [o[key]], also finds what the
      literal inherits from [Object.prototype].
    - [console.log] appends a line to a console, a [list string]. *)

From Stdlib Require Import ZArith Lia.
From stdpp Require Import base option list strings gmap.

Local Open Scope Z_scope.

(** ** JavaScript string primitives *)

Module JSString.

(** The clamping of a relative index that [String.prototype.slice] applies
    to both its arguments: a negative index counts from the end. *)
Definition relative_index (len i : Z) : Z :=
  if i <? 0 then Z.max (len + i) 0 else Z.min i len.

(** [s.slice(start, end)]; [end_ = None] is the call with one argument. *)
Definition slice (s : string) (start : Z) (end_ : option Z) : string :=
  let len := Z.of_nat (String.length s) in
  let from := relative_index len start in
  let to := relative_index len (default len end_) in
  if to <=? from then ""
  else String.substring (Z.to_nat from) (Z.to_nat (to - from)) s.

End JSString.

(** ** Command pattern: the text editor ([src/command_textEditor.ts]) *)

Module CommandTextEditor.
Import JSString.

(** *** Receiver *)

(** [class TextEditor]: one private field, [text], initially empty. *)
Record TextEditor := { text : string }.

Definition new_TextEditor : TextEditor := {| text := "" |}.

(** [this.text += newText] *)
Definition addText (this : TextEditor) (newText : string) : TextEditor :=
  {| text := text this +:+ newText |}.

(** [this.text = this.text.slice(0, -count)] *)
Definition deleteText (this : TextEditor) (count : Z) : TextEditor :=
  {| text := slice (text this) 0 (Some (- count)) |}.

(** *** Concrete commands *)

(** The two classes implementing [interface Command].  Every command of a
    world is bound to that world's single receiver, so the [editor] field
    is left implicit.  [deletedText] is the mutable field of
    [DeleteCommand], overwritten by each [execute]. *)
Inductive Command :=
| TypeCommand (textToAdd : string)
| DeleteCommand (deletedText : string) (count : Z).

Definition new_TypeCommand (textToAdd : string) : Command :=
  TypeCommand textToAdd.

Definition new_DeleteCommand (count : Z) : Command :=
  DeleteCommand "" count.

Definition TypeCommand_execute (textToAdd : string) (editor : TextEditor)
  : TextEditor :=
  addText editor textToAdd.

Definition TypeCommand_undo (textToAdd : string) (editor : TextEditor)
  : TextEditor :=
  deleteText editor (Z.of_nat (String.length textToAdd)).

(** Returns the new value of [this.deletedText] and the receiver. *)
Definition DeleteCommand_execute (count : Z) (editor : TextEditor)
  : string * TextEditor :=
  let currentText := text editor in
  let deletedText := slice currentText (- count) None in
  (deletedText, deleteText editor count).

Definition DeleteCommand_undo (deletedText : string) (editor : TextEditor)
  : TextEditor :=
  addText editor deletedText.

(** Dynamic dispatch of [command.execute()]: the command object after the
    call, and the receiver after the call. *)
Definition Command_execute (this : Command) (editor : TextEditor)
  : Command * TextEditor :=
  match this with
  | TypeCommand textToAdd =>
      (this, TypeCommand_execute textToAdd editor)
  | DeleteCommand _ count =>
      let '(deletedText, editor') := DeleteCommand_execute count editor in
      (DeleteCommand deletedText count, editor')
  end.

(** Dynamic dispatch of [command.undo()]; no command field is written. *)
Definition Command_undo (this : Command) (editor : TextEditor)
  : TextEditor :=
  match this with
  | TypeCommand textToAdd => TypeCommand_undo textToAdd editor
  | DeleteCommand deletedText _ => DeleteCommand_undo deletedText editor
  end.

(** *** The program state *)

(** [editor]: the receiver.  [objects]: the command objects allocated so
    far; a command reference is an index into it.  [history]: the
    invoker's array of command references, oldest first.  [console]: the
    lines printed so far. *)
Record World := {
  editor : TextEditor;
  objects : list Command;
  history : list nat;
  console : list string;
}.

Definition initial : World :=
  {| editor := new_TextEditor; objects := []; history := []; console := [] |}.

(** [new C(...)]: allocates the object and returns its reference. *)
Definition alloc (w : World) (c : Command) : nat * World :=
  (length (objects w),
   {| editor := editor w; objects := objects w ++ [c];
      history := history w; console := console w |}).

(** [command.execute()] on the object that [c] refers to. *)
Definition execute (w : World) (c : nat) : World :=
  match objects w !! c with
  | Some this =>
      let '(this', editor') := Command_execute this (editor w) in
      {| editor := editor'; objects := <[c := this']> (objects w);
         history := history w; console := console w |}
  | None => w
  end.

(** [Array.prototype.push] and [Array.prototype.pop]. *)
Definition array_push {A} (a : list A) (x : A) : list A := a ++ [x].

Definition array_pop {A} (a : list A) : option A * list A :=
  (last a, removelast a).

(** *** Invoker *)

(** [EditorInvoker.executeCommand(command)] *)
Definition executeCommand (w : World) (command : nat) : World :=
  let w' := execute w command in
  {| editor := editor w'; objects := objects w';
     history := array_push (history w') command; console := console w' |}.

(** [EditorInvoker.undo()] *)
Definition undo (w : World) : World :=
  let '(command, history') := array_pop (history w) in
  match command with
  | Some c =>
      match objects w !! c with
      | Some this =>
          {| editor := Command_undo this (editor w); objects := objects w;
             history := history'; console := console w |}
      | None =>
          {| editor := editor w; objects := objects w;
             history := history'; console := console w |}
      end
  | None =>
      {| editor := editor w; objects := objects w;
         history := history'; console := console w ++ ["Nothing to undo"] |}
  end.

(** *** Client programs *)

(** A [new TypeCommand(editor, t)] or [new DeleteCommand(editor, n)]
    expression of the client. *)
Inductive NewCommand :=
| NewType (textToAdd : string)
| NewDelete (count : Z).

Definition construct (n : NewCommand) : Command :=
  match n with
  | NewType t => new_TypeCommand t
  | NewDelete k => new_DeleteCommand k
  end.

(** [invoker.executeCommand(new C(editor, ...))], as in the usage example
    of the source: the command is created right before it is executed. *)
Definition run_new (w : World) (n : NewCommand) : World :=
  let '(c, w') := alloc w (construct n) in executeCommand w' c.

Definition run_all (w : World) (ns : list NewCommand) : World :=
  fold_left run_new ns w.

(** [k] calls of [invoker.undo()] in a row. *)
Fixpoint undo_times (k : nat) (w : World) : World :=
  match k with
  | O => w
  | S k' => undo_times k' (undo w)
  end.

(** The usage example of the source, one observed text per [showText]. *)
Definition usage_example : list string :=
  let w1 := run_new initial (NewType "Hello") in
  let w2 := run_new w1 (NewType " World") in
  let w3 := run_new w2 (NewDelete 6) in
  let w4 := undo w3 in
  let w5 := undo w4 in
  let w6 := undo w5 in
  map (fun w => text (editor w)) [w1; w2; w3; w4; w5; w6].

(** *** Length bookkeeping of a history

    [journal objs h n]: the commands of [h], oldest first, read with the
    fields they have in [objs], account for a text of [n] characters: a
    [TypeCommand] adds the length of its text, a [DeleteCommand] takes
    away the length of the text it has stored. *)
Inductive journal (objs : list Command) : list nat -> nat -> Prop :=
| journal_nil : journal objs [] 0
| journal_type h n c textToAdd :
    journal objs h n ->
    objs !! c = Some (TypeCommand textToAdd) ->
    journal objs (h ++ [c]) (n + String.length textToAdd)
| journal_delete h n c deletedText count :
    journal objs h (n + String.length deletedText) ->
    objs !! c = Some (DeleteCommand deletedText count) ->
    journal objs (h ++ [c]) n.

(** The text is never longer than what the history accounts for. *)
Definition bounded (w : World) : Prop :=
  exists n, journal (objects w) (history w) n /\
            (String.length (text (editor w)) <= n)%nat.

End CommandTextEditor.

(** ** Chain of Responsibility: the login pipeline
       ([src/chainOfResponsibility_login.ts]) *)

Module ChainOfResponsibilityLogin.

(** *** Values and property lookup *)

(** The values that can end up in [request.userData]: an entry of the
    user table, an object literal [{ password, role }], or a built-in
    object (a function, or the prototype object itself) reached through
    the prototype of the table. *)
Inductive Value :=
| UserEntry (password role : string)
| Builtin (name : string).

(** [v.password] and [v.role]; [None] is [undefined].  A built-in object
    has neither property. *)
Definition Value_password (v : Value) : option string :=
  match v with
  | UserEntry password _ => Some password
  | Builtin _ => None
  end.

Definition Value_role (v : Value) : option string :=
  match v with
  | UserEntry _ role => Some role
  | Builtin _ => None
  end.

(** The property names of [Object.prototype], the prototype of every
    object literal (ECMAScript 20.1.3 and B.2.2). *)
Definition Object_prototype : list string :=
  [ "constructor"; "hasOwnProperty"; "isPrototypeOf";
    "propertyIsEnumerable"; "toLocaleString"; "toString"; "valueOf";
    "__proto__"; "__defineGetter__"; "__defineSetter__";
    "__lookupGetter__"; "__lookupSetter__" ].

(** [o[key]] for an object literal [o] with the own properties [own]: the
    own property if there is one, else the inherited one, else
    [undefined] ([None]). *)
Definition Get (own : gmap string Value) (key : string) : option Value :=
  match own !! key with
  | Some v => Some v
  | None =>
      if bool_decide (key ∈ Object_prototype) then Some (Builtin key)
      else None
  end.

(** [a !== b] where [a] is a string or [undefined] and [b] is a string. *)
Definition strict_ne (a : option string) (b : string) : bool :=
  match a with
  | Some a' => negb (String.eqb a' b)
  | None => true
  end.

(** *** Requests *)

(** The request object: [username] and [password] are strings, and
    [userData] is absent ([None]) until a handler attaches it. *)
Record Request := {
  username : string;
  password : string;
  userData : option Value;
}.

Definition new_Request (username password : string) : Request :=
  {| username := username; password := password; userData := None |}.

(** *** Outcome of a call *)

(** How a call of [handle] ends: it returns, it throws a [TypeError]
    (a property of [undefined] was read), or the chain of nested calls
    is deeper than the depth allowed to the model. *)
Inductive Completion :=
| Normal
| ThrowTypeError
| TooDeep.

(** The request object after the call, the lines printed by the call, and
    how the call ended. *)
Record Outcome := {
  request : Request;
  printed : list string;
  completion : Completion;
}.

Definition returns (r : Request) (lines : list string) : Outcome :=
  {| request := r; printed := lines; completion := Normal |}.

Definition throws (r : Request) : Outcome :=
  {| request := r; printed := []; completion := ThrowTypeError |}.

(** *** Handlers *)

Inductive HandlerClass :=
| UserExistsHandler
| PasswordHandler
| RoleHandler (requiredRole : string).

(** A handler object: its class and the private field [nextHandler] of
    [AbstractHandler] ([None] is [null]).  A handler reference is an
    index into the store of handler objects. *)
Record Handler := {
  class : HandlerClass;
  nextHandler : option nat;
}.

Definition new_Handler (σ : list Handler) (c : HandlerClass)
  : nat * list Handler :=
  (length σ, σ ++ [{| class := c; nextHandler := None |}]).

(** [AbstractHandler.setNext]: writes [this.nextHandler] and returns the
    argument. *)
Definition setNext (σ : list Handler) (this handler : nat)
  : nat * list Handler :=
  (handler,
   alter (fun o => {| class := class o; nextHandler := Some handler |})
     this σ).

(** [AbstractHandler.handle]; [dispatch] is the virtual call
    [this.nextHandler.handle(request)]. *)
Definition AbstractHandler_handle (dispatch : nat -> Request -> Outcome)
    (this : Handler) (request : Request) : Outcome :=
  match nextHandler this with
  | Some next => dispatch next request
  | None => returns request []
  end.

(** The table of [UserExistsHandler], the same in every instance. *)
Definition users : gmap string Value :=
  <["alice" := UserEntry "1234" "admin"]>
    (<["bob" := UserEntry "abcd" "user"]> ∅).

(** [UserExistsHandler.handle]; [super_handle] is [super.handle].  Every
    value that [Get] finds is an object, hence truthy. *)
Definition UserExistsHandler_handle (super_handle : Request -> Outcome)
    (request : Request) : Outcome :=
  match Get users (username request) with
  | None => returns request ["User does not exist!"]
  | Some found =>
      super_handle {| username := username request;
                      password := password request;
                      userData := Some found |}
  end.

(** [PasswordHandler.handle] *)
Definition PasswordHandler_handle (super_handle : Request -> Outcome)
    (request : Request) : Outcome :=
  match userData request with
  | None => throws request
  | Some data =>
      if strict_ne (Value_password data) (password request)
      then returns request ["Incorrect password!"]
      else super_handle request
  end.

(** [RoleHandler.handle]; it never calls [super.handle]. *)
Definition RoleHandler_handle (requiredRole : string) (request : Request)
  : Outcome :=
  match userData request with
  | None => throws request
  | Some data =>
      if strict_ne (Value_role data) requiredRole
      then returns request ["Access denied! Role is not valid."]
      else returns request ["User successfully logged in!"]
  end.

(** The virtual call [h.handle(request)] on the handler that [this]
    refers to, with at most [depth] nested calls of [handle]. *)
Fixpoint handle (depth : nat) (σ : list Handler) (this : nat)
    (request : Request) : Outcome :=
  match depth with
  | O => {| request := request; printed := []; completion := TooDeep |}
  | S depth' =>
      match σ !! this with
      | Some o =>
          let super_handle := AbstractHandler_handle (handle depth' σ) o in
          match class o with
          | UserExistsHandler =>
              UserExistsHandler_handle super_handle request
          | PasswordHandler =>
              PasswordHandler_handle super_handle request
          | RoleHandler requiredRole =>
              RoleHandler_handle requiredRole request
          end
      | None => returns request []
      end
  end.

(** *** The chain of the source *)

Definition userExists : nat := 0.
Definition passwordCheck : nat := 1.
Definition roleCheck : nat := 2.

(** The three [new] expressions followed by
    [userExists.setNext(passwordCheck).setNext(roleCheck)]: the store
    they leave, and the value of the whole [setNext] expression. *)
Definition build_chain : nat * list Handler :=
  let '(h1, σ) := new_Handler [] UserExistsHandler in
  let '(h2, σ) := new_Handler σ PasswordHandler in
  let '(h3, σ) := new_Handler σ (RoleHandler "admin") in
  let '(r, σ) := setNext σ h1 h2 in
  setNext σ r h3.

Definition chain : list Handler := snd build_chain.

End ChainOfResponsibilityLogin.

(** ** The rest of the two programs *)

Module Display.
Import CommandTextEditor.

(** The character U+0022, which delimits the text in the line that
    [showText] prints. *)
Definition quotation_mark : string :=
  String (Ascii.Ascii false true false false false true false false) "".

(** The argument of [console.log] in [TextEditor.showText]: the template
    literal with [this.text] between two quotation marks. *)
Definition showText_line (this : TextEditor) : string :=
  "Current Text: " +:+ quotation_mark +:+ text this +:+ quotation_mark.

(** [editor.showText()] *)
Definition showText (w : World) : World :=
  {| editor := editor w; objects := objects w; history := history w;
     console := console w ++ [showText_line (editor w)] |}.

End Display.

Module ChainVariants.
Import ChainOfResponsibilityLogin.

(** [a.setNext(b).setNext(a)] on a new [UserExistsHandler] [a] and a new
    [PasswordHandler] [b]: the two handlers are each other's successor. *)
Definition build_cycle : nat * list Handler :=
  let '(a, σ) := new_Handler [] UserExistsHandler in
  let '(b, σ) := new_Handler σ PasswordHandler in
  let '(r, σ) := setNext σ a b in
  setNext σ r a.

End ChainVariants.

Module Clients.
Import CommandTextEditor.

(** Whether the object that [c] refers to is a [DeleteCommand], the one
    class of command with a field that [execute()] writes. *)
Definition Command_is_delete (this : Command) : bool :=
  match this with
  | TypeCommand _ => false
  | DeleteCommand _ _ => true
  end.

Definition is_DeleteCommand (objs : list Command) (c : nat) : bool :=
  match objs !! c with
  | Some this => Command_is_delete this
  | None => false
  end.

(** A client that holds the command objects [objs], created beforehand
    for an empty buffer, and calls [invoker.executeCommand] on the
    references [cs] in turn, then [invoker.undo()] once per call. *)
Definition execute_then_undo_all (objs : list Command) (cs : list nat)
  : World :=
  let w := {| editor := new_TextEditor; objects := objs;
              history := []; console := [] |} in
  undo_times (length cs) (fold_left executeCommand cs w).

End Clients.

(** * Properties *)

(** ** Facts about [slice] *)

Module JSStringFacts.
Import JSString.

Lemma relative_index_range len i :
  0 <= len -> 0 <= relative_index len i <= len.
Proof. unfold relative_index. destruct (Z.ltb_spec i 0); lia. Qed.

Lemma app_cons (c : Ascii.ascii) (s t : string) :
  String c s +:+ t = String c (s +:+ t).
Proof. reflexivity. Qed.

Lemma app_empty_l (t : string) : "" +:+ t = t.
Proof. reflexivity. Qed.

Lemma app_empty_r (s : string) : s +:+ "" = s.
Proof. induction s as [|c s IH]; [done | by rewrite app_cons, IH]. Qed.

Lemma length_append (s t : string) :
  String.length (s +:+ t) = (String.length s + String.length t)%nat.
Proof.
  induction s as [|c s IH]; [done | rewrite app_cons; simpl; by rewrite IH].
Qed.

Lemma substring_zero (n : nat) (s : string) : String.substring n 0 s = "".
Proof.
  revert n; induction s as [|c s IH]; intros [|n]; simpl; done.
Qed.

Lemma substring_all (s : string) : String.substring 0 (String.length s) s = s.
Proof. induction s as [|c s IH]; simpl; [done | by rewrite IH]. Qed.

Lemma length_substring (n m : nat) (s : string) :
  (n + m <= String.length s)%nat -> String.length (String.substring n m s) = m.
Proof.
  revert n m; induction s as [|c s IH]; intros [|n] [|m]; simpl; intros H;
    try done; try lia.
  - rewrite (IH 0%nat m); [done | simpl; lia].
  - apply (IH n 0%nat); lia.
  - apply (IH n (S m)); lia.
Qed.

(** Splitting a string at position [k] and gluing the halves back. *)
Lemma substring_split (k : nat) (s : string) :
  (k <= String.length s)%nat ->
  String.substring 0 k s +:+ String.substring k (String.length s - k) s = s.
Proof.
  revert k; induction s as [|c s IH]; intros [|k]; simpl; intros H;
    try done; try lia.
  - by rewrite substring_all.
  - rewrite app_cons, IH; [done | lia].
Qed.

Lemma substring_app_l (s t : string) :
  String.substring 0 (String.length s) (s +:+ t) = s.
Proof.
  induction s as [|c s IH]; [apply substring_zero |].
  rewrite app_cons; simpl; by rewrite IH.
Qed.

(** [s.slice(0, e)] is the prefix of [s] up to the clamped index. *)
Lemma slice_prefix (s : string) (e : Z) :
  slice s 0 (Some e) =
  String.substring 0 (Z.to_nat (relative_index (Z.of_nat (String.length s)) e)) s.
Proof.
  unfold slice; simpl.
  pose proof (relative_index_range (Z.of_nat (String.length s)) e
                ltac:(lia)) as Hr.
  set (k := relative_index (Z.of_nat (String.length s)) e) in *.
  assert (relative_index (Z.of_nat (String.length s)) 0 = 0) as ->
    by (unfold relative_index; simpl; lia).
  destruct (Z.leb_spec k 0).
  - replace k with 0 by lia. by rewrite substring_zero.
  - by rewrite Z.sub_0_r.
Qed.

(** [s.slice(e)] is the suffix of [s] from the clamped index. *)
Lemma slice_suffix (s : string) (e : Z) :
  let k := Z.to_nat (relative_index (Z.of_nat (String.length s)) e) in
  slice s e None = String.substring k (String.length s - k) s.
Proof.
  unfold slice; simpl.
  pose proof (relative_index_range (Z.of_nat (String.length s)) e
                ltac:(lia)) as Hr.
  set (k := relative_index (Z.of_nat (String.length s)) e) in *.
  assert (relative_index (Z.of_nat (String.length s))
            (Z.of_nat (String.length s)) = Z.of_nat (String.length s)) as ->
    by (unfold relative_index; destruct (Z.ltb_spec (Z.of_nat (String.length s)) 0); lia).
  destruct (Z.leb_spec (Z.of_nat (String.length s)) k).
  - replace (String.length s - Z.to_nat k)%nat with 0%nat by lia.
    by rewrite substring_zero.
  - f_equal. lia.
Qed.

(** The two slices taken at the same index partition the string. *)
Lemma slice_partition (s : string) (e : Z) :
  slice s 0 (Some e) +:+ slice s e None = s.
Proof.
  rewrite slice_prefix, slice_suffix.
  pose proof (relative_index_range (Z.of_nat (String.length s)) e
                ltac:(lia)).
  apply substring_split. lia.
Qed.

Lemma length_slice_prefix (s : string) (e : Z) :
  Z.of_nat (String.length (slice s 0 (Some e))) =
  relative_index (Z.of_nat (String.length s)) e.
Proof.
  rewrite slice_prefix.
  pose proof (relative_index_range (Z.of_nat (String.length s)) e
                ltac:(lia)).
  rewrite length_substring; lia.
Qed.

Lemma length_zero_inv (s : string) : String.length s = 0%nat -> s = "".
Proof. by destruct s. Qed.

End JSStringFacts.

(** ** The receiver and single commands *)

Module TextEditorProperties.
Import JSString JSStringFacts CommandTextEditor.

Lemma TextEditor_eq (a b : TextEditor) : text a = text b -> a = b.
Proof. destruct a, b; simpl; by intros ->. Qed.

(** The length that [deleteText] leaves. *)
Lemma length_deleteText (this : TextEditor) (count : Z) :
  Z.of_nat (String.length (text (deleteText this count))) =
  relative_index (Z.of_nat (String.length (text this))) (- count).
Proof. apply length_slice_prefix. Qed.

(** For a positive count, [deleteText] keeps the first [length - count]
    characters, none when [count] is larger than the length. *)
Lemma deleteText_positive (this : TextEditor) (count : Z) :
  0 < count ->
  text (deleteText this count) =
  String.substring 0 (String.length (text this) - Z.to_nat count)
    (text this).
Proof.
  intros Hc. unfold deleteText; simpl. rewrite slice_prefix. f_equal.
  unfold relative_index. destruct (Z.ltb_spec (- count) 0); lia.
Qed.

Lemma deleteText_clamps (this : TextEditor) (count : Z) :
  Z.of_nat (String.length (text this)) < count ->
  text (deleteText this count) = "".
Proof.
  intros Hc. rewrite deleteText_positive by lia.
  replace (String.length (text this) - Z.to_nat count)%nat with 0%nat by lia.
  apply substring_zero.
Qed.

(** For the count zero, [-count] is the index [0], counted from the
    start: nothing is kept. *)
Lemma deleteText_zero (this : TextEditor) :
  text (deleteText this 0) = "".
Proof.
  unfold deleteText; simpl. rewrite slice_prefix.
  replace (relative_index (Z.of_nat (String.length (text this))) (- 0))
    with 0 by (unfold relative_index; simpl; lia).
  apply substring_zero.
Qed.

(** Deleting what was just appended, when it is not empty. *)
Lemma deleteText_addText (this : TextEditor) (newText : string) :
  newText <> "" ->
  deleteText (addText this newText) (Z.of_nat (String.length newText)) = this.
Proof.
  intros Hne. apply TextEditor_eq.
  assert (0 < String.length newText)%nat as Hlen
    by (destruct newText; [done | simpl; lia]).
  rewrite deleteText_positive by lia. simpl.
  rewrite length_append, Nat2Z.id.
  replace (String.length (text this) + String.length newText
           - String.length newText)%nat
    with (String.length (text this)) by lia.
  apply substring_app_l.
Qed.

(** Appending what [slice(-count)] took gives the text back, whatever
    the count. *)
Lemma addText_deleteText (this : TextEditor) (count : Z) :
  addText (deleteText this count) (slice (text this) (- count) None) = this.
Proof. apply TextEditor_eq; simpl. apply slice_partition. Qed.

Lemma slice_suffix_all (s : string) (count : Z) :
  Z.of_nat (String.length s) <= count \/ count = 0 ->
  slice s (- count) None = s.
Proof.
  intros Hc. rewrite slice_suffix.
  assert (relative_index (Z.of_nat (String.length s)) (- count) = 0) as ->
    by (unfold relative_index; destruct (Z.ltb_spec (- count) 0); lia).
  simpl. rewrite Nat.sub_0_r. apply substring_all.
Qed.

(** C2, at the count zero: [deleteText(0)] on the buffer "abc" leaves the
    empty string, where removing the last zero characters would leave
    "abc". *)
Theorem deleteText_zero_clears_abc :
  text (deleteText {| text := "abc" |} 0) = "".
Proof. reflexivity. Qed.

(** C3, at the empty inserted text: on the buffer "abc",
    [TypeCommand("")] leaves "abc" on [execute()], and its [undo()],
    which calls [deleteText(0)], leaves the empty string instead of
    "abc". *)
Theorem TypeCommand_empty_undo_clears_abc :
  let before := {| text := "abc" |} in
  let '(this, after) := Command_execute (new_TypeCommand "") before in
  text after = "abc" /\ text (Command_undo this after) = "".
Proof. by split. Qed.

(** What holds of [TypeCommand] for every buffer: [undo()] right after
    [execute()] restores the buffer when the inserted text is not empty,
    and clears it when the inserted text is empty. *)
Lemma TypeCommand_execute_undo (textToAdd : string) (before : TextEditor) :
  TypeCommand_undo textToAdd (TypeCommand_execute textToAdd before) =
  if bool_decide (textToAdd = "") then new_TextEditor else before.
Proof.
  unfold TypeCommand_undo, TypeCommand_execute. case_bool_decide as Ht.
  - subst. apply TextEditor_eq. apply deleteText_zero.
  - by apply deleteText_addText.
Qed.

(** C4: a [DeleteCommand] whose count is larger than the length of the
    buffer empties the buffer on [execute()], stores the whole previous
    content as its deleted text, and its [undo()] restores exactly the
    previous content. *)
Theorem DeleteCommand_over_length (before : TextEditor)
    (stale : string) (count : Z) :
  Z.of_nat (String.length (text before)) < count ->
  let '(this, after) := Command_execute (DeleteCommand stale count) before in
  text after = "" /\
  this = DeleteCommand (text before) count /\
  Command_undo this after = before.
Proof.
  intros Hc. simpl. split; [|split].
  - by apply deleteText_clamps.
  - by rewrite slice_suffix_all by lia.
  - apply addText_deleteText.
Qed.

Lemma DeleteCommand_over_length_witness :
  let before := {| text := "abc" |} in
  let '(this, after) := Command_execute (DeleteCommand "" 5) before in
  text after = "" /\
  this = DeleteCommand "abc" 5 /\
  Command_undo this after = before.
Proof.
  apply (DeleteCommand_over_length {| text := "abc" |} "" 5). simpl. lia.
Defined.

(** C8: for every buffer and every count that is not negative,
    [execute()] then [undo()] of one [DeleteCommand] restores the buffer;
    for the count zero, [execute()] empties the buffer and stores the
    whole previous content. *)
Theorem DeleteCommand_execute_undo (before : TextEditor)
    (stale : string) (count : Z) :
  0 <= count ->
  let '(this, after) := Command_execute (DeleteCommand stale count) before in
  Command_undo this after = before /\
  (count = 0 ->
   text after = "" /\ this = DeleteCommand (text before) 0).
Proof.
  intros _. simpl. split; [apply addText_deleteText|].
  intros ->. split; [apply deleteText_zero|].
  by rewrite slice_suffix_all by lia.
Qed.

Lemma DeleteCommand_execute_undo_witness :
  let before := {| text := "Hello World" |} in
  let '(this, after) := Command_execute (DeleteCommand "" 0) before in
  Command_undo this after = before /\
  (0 = 0 ->
   text after = "" /\ this = DeleteCommand "Hello World" 0).
Proof.
  apply (DeleteCommand_execute_undo {| text := "Hello World" |} "" 0). lia.
Defined.

End TextEditorProperties.

(** ** The invoker and its history *)

Module InvokerProperties.
Import JSString JSStringFacts CommandTextEditor TextEditorProperties.

Lemma array_pop_push {A} (a : list A) (x : A) :
  array_pop (array_push a x) = (Some x, a).
Proof.
  unfold array_pop, array_push. by rewrite last_snoc, removelast_last.
Qed.

(** C6: [undo()] of the invoker on an empty history changes neither the
    receiver, nor the command objects, nor the history; it prints
    "Nothing to undo" and returns. *)
Theorem undo_empty_history (e : TextEditor) (objs : list Command)
    (lines : list string) :
  undo {| editor := e; objects := objs; history := []; console := lines |} =
  {| editor := e; objects := objs; history := [];
     console := lines ++ ["Nothing to undo"] |}.
Proof. reflexivity. Qed.

(** *** The journal of a history *)

Lemma journal_nil_inv objs n : journal objs [] n -> n = 0%nat.
Proof.
  inversion 1 as [|h m c t _ _ Heq|h m c d k _ _ Heq]; [done|..];
    by destruct h.
Qed.

Lemma journal_snoc_inv objs h c n :
  journal objs (h ++ [c]) n ->
  (exists t m, objs !! c = Some (TypeCommand t) /\ journal objs h m /\
               n = (m + String.length t)%nat) \/
  (exists d k, objs !! c = Some (DeleteCommand d k) /\
               journal objs h (n + String.length d)).
Proof.
  inversion 1 as [Heq|h' m c' t Hj Hc Heq|h' m c' d k Hj Hc Heq].
  - by destruct h.
  - apply app_inj_tail in Heq as [-> ->]. left. eauto.
  - apply app_inj_tail in Heq as [-> ->]. right. eauto.
Qed.

(** Every reference of a journalled history denotes an object. *)
Lemma journal_valid objs h n c :
  journal objs h n -> c ∈ h -> (c < length objs)%nat.
Proof.
  induction 1 as [|h n c' t _ IH Hc|h n c' d k _ IH Hc];
    intros Hin; [by apply elem_of_nil in Hin|..];
    (apply elem_of_app in Hin as [Hin|Hin%list_elem_of_singleton];
     [by apply IH | subst; by eapply lookup_lt_Some]).
Qed.

(** Allocation keeps the journal. *)
Lemma journal_alloc objs h n more :
  journal objs h n -> journal (objs ++ more) h n.
Proof.
  induction 1; econstructor; eauto using lookup_app_l_Some.
Qed.

(** Writing an object that the history does not hold keeps the journal. *)
Lemma journal_insert objs h n c x :
  journal objs h n -> c ∉ h -> journal (<[c := x]> objs) h n.
Proof.
  induction 1 as [|h n c' t _ IH Hc|h n c' d k _ IH Hc]; intros Hnot.
  - constructor.
  - apply not_elem_of_app in Hnot as [Hh Hc'%not_elem_of_cons].
    destruct Hc' as [Hne _].
    eapply journal_type; [by apply IH|].
    by rewrite list_lookup_insert_ne.
  - apply not_elem_of_app in Hnot as [Hh Hc'%not_elem_of_cons].
    destruct Hc' as [Hne _].
    eapply journal_delete; [by apply IH|].
    by rewrite list_lookup_insert_ne.
Qed.

(** *** One step of the invoker *)

(** Executing, through the invoker, a command that the history does not
    hold yet keeps the text within the journal. *)
Lemma executeCommand_bounded (w : World) (c : nat) :
  bounded w -> c ∉ history w -> (c < length (objects w))%nat ->
  bounded (executeCommand w c) /\
  history (executeCommand w c) = history w ++ [c] /\
  length (objects (executeCommand w c)) = length (objects w) /\
  console (executeCommand w c) = console w.
Proof.
  intros (n & Hj & Hle) Hnot Hlt.
  destruct (lookup_lt_is_Some_2 _ _ Hlt) as [this Hthis].
  unfold executeCommand, execute, bounded. rewrite Hthis.
  destruct this as [t|d k]; simpl.
  - repeat split; [|by rewrite length_insert].
    exists (n + String.length t)%nat. split.
    + eapply journal_type; [by apply journal_insert|].
      by rewrite list_lookup_insert_eq.
    + rewrite length_append. lia.
  - repeat split; [|by rewrite length_insert].
    set (rest := slice (text (editor w)) 0 (Some (- k))).
    set (gone := slice (text (editor w)) (- k) None).
    assert (String.length (text (editor w)) =
            (String.length rest + String.length gone)%nat) as Hsplit
      by (rewrite <- length_append; unfold rest, gone;
          by rewrite slice_partition).
    exists (n - String.length gone)%nat. split; [|lia].
    eapply journal_delete; [|by rewrite list_lookup_insert_eq].
    apply journal_insert; [|done].
    by replace (n - String.length gone + String.length gone)%nat
      with n by lia.
Qed.

(** Undoing, through the invoker, the last command of a journalled
    history keeps the text within the journal of the rest. *)
Lemma undo_bounded (w : World) (h : list nat) (c : nat) :
  bounded w -> history w = h ++ [c] ->
  bounded (undo w) /\ history (undo w) = h /\
  objects (undo w) = objects w /\ console (undo w) = console w.
Proof.
  intros (n & Hj & Hle) Hh. unfold undo, bounded.
  rewrite Hh in *. change (h ++ [c]) with (array_push h c).
  rewrite array_pop_push. unfold array_push in Hj.
  apply journal_snoc_inv in Hj
    as [(t & m & Hc & Hj & ->)|(d & k & Hc & Hj)]; rewrite Hc;
    cbn [editor objects history console Command_undo].
  - repeat split. exists m. split; [done|]. unfold TypeCommand_undo.
    pose proof (length_deleteText (editor w)
                  (Z.of_nat (String.length t))) as Hlen.
    unfold relative_index in Hlen.
    destruct (Z.ltb_spec (- Z.of_nat (String.length t)) 0). all: lia.
  - repeat split. exists (n + String.length d)%nat. split; [done|].
    simpl. rewrite length_append. lia.
Qed.

(** *** Whole runs *)

Lemma bounded_initial : bounded initial.
Proof. exists 0%nat. split; [constructor | done]. Qed.

(** [invoker.executeCommand(new C(...))] keeps the text within the
    journal: the new object is not in the history yet. *)
Lemma run_new_bounded (w : World) (n : NewCommand) :
  bounded w ->
  bounded (run_new w n) /\
  history (run_new w n) = history w ++ [length (objects w)] /\
  console (run_new w n) = console w.
Proof.
  intros (m & Hj & Hle). unfold run_new, alloc.
  set (w' := {| editor := editor w; objects := objects w ++ [construct n];
                history := history w; console := console w |}).
  destruct (executeCommand_bounded w' (length (objects w)))
    as (Hb & Hh & _ & Hc).
  - exists m. split; [by apply journal_alloc | done].
  - intros Hin. apply (journal_valid _ _ _ _ Hj) in Hin. lia.
  - simpl. rewrite length_app. simpl. lia.
  - done.
Qed.

Lemma run_all_bounded (ns : list NewCommand) (w : World) :
  bounded w ->
  bounded (run_all w ns) /\
  length (history (run_all w ns)) = (length (history w) + length ns)%nat /\
  console (run_all w ns) = console w.
Proof.
  revert w. induction ns as [|n ns IH]; intros w Hb; simpl.
  - repeat split; [done | lia].
  - destruct (run_new_bounded w n Hb) as (Hb' & Hh & Hc).
    destruct (IH _ Hb') as (Hb'' & Hlen & Hc').
    repeat split; [done | | congruence].
    rewrite Hlen, Hh, length_app. simpl. lia.
Qed.

(** Undoing as many times as the history is long empties the history
    and the text, and never finds the history empty on the way. *)
Lemma undo_times_bounded (k : nat) (w : World) :
  bounded w -> length (history w) = k ->
  text (editor (undo_times k w)) = "" /\
  history (undo_times k w) = [] /\
  objects (undo_times k w) = objects w /\
  console (undo_times k w) = console w.
Proof.
  revert w. induction k as [|k IH]; intros w Hb Hlen; simpl.
  - apply nil_length_inv in Hlen. destruct Hb as (n & Hj & Hle).
    rewrite Hlen in Hj. apply journal_nil_inv in Hj as ->.
    repeat split; [|done]. apply length_zero_inv. lia.
  - destruct (history w) as [|c0 h0] eqn:Hh using rev_ind; [done|].
    clear IHh0. rewrite length_app in Hlen. simpl in Hlen.
    destruct (undo_bounded w h0 c0 Hb Hh) as (Hb' & Hh' & Ho & Hc).
    destruct (IH (undo w) Hb') as (? & ? & ? & ?); [rewrite Hh'; lia|].
    repeat split; congruence.
Qed.

(** Every sequence of newly created [TypeCommand]s and [DeleteCommand]s,
    of any inserted texts and any counts, executed through the invoker on
    a fresh buffer and then undone one by one through the invoker, leaves
    the buffer empty; each [undo()] finds a command in the history, and
    the history ends empty. *)
Theorem execute_all_undo_all (ns : list NewCommand) :
  let w := undo_times (length ns) (run_all initial ns) in
  text (editor w) = "" /\ history w = [] /\ console w = [].
Proof.
  destruct (run_all_bounded ns initial bounded_initial) as (Hb & Hlen & Hc).
  destruct (undo_times_bounded (length ns) (run_all initial ns) Hb)
    as (Ht & Hh & _ & Hc'); [by rewrite Hlen|].
  simpl. repeat split; [done..|]. by rewrite Hc', Hc.
Qed.

(** The same for command objects allocated beforehand, as long as no
    object is executed twice. *)
Lemma executeCommand_all_bounded (cs : list nat) (w : World) :
  bounded w -> NoDup (history w ++ cs) ->
  (forall c, c ∈ cs -> (c < length (objects w))%nat) ->
  bounded (fold_left executeCommand cs w) /\
  history (fold_left executeCommand cs w) = history w ++ cs.
Proof.
  revert w. induction cs as [|c cs IH]; intros w Hb Hnd Hv; simpl.
  - by rewrite app_nil_r.
  - apply NoDup_app in Hnd as (Hnd1 & Hnd2 & Hnd3).
    apply NoDup_cons in Hnd3 as [Hc Hnd3].
    destruct (executeCommand_bounded w c Hb) as (Hb' & Hh & Hl & _).
    { intros Hin. apply (Hnd2 _ Hin). by left. }
    { apply Hv. by left. }
    destruct (IH _ Hb') as [Hb'' Hh''].
    + rewrite Hh. rewrite <- app_assoc. simpl.
      apply NoDup_app. repeat split; [done| |by apply NoDup_cons].
      intros x Hx. by apply Hnd2.
    + intros x Hx. rewrite Hl. apply Hv. by right.
    + split; [done|]. rewrite Hh'', Hh. by rewrite <- app_assoc.
Qed.

Lemma execute_distinct_undo_all (objs : list Command) (cs : list nat) :
  NoDup cs -> (forall c, c ∈ cs -> (c < length objs)%nat) ->
  let w := {| editor := new_TextEditor; objects := objs;
              history := []; console := [] |} in
  text (editor (undo_times (length cs) (fold_left executeCommand cs w))) = "".
Proof.
  intros Hnd Hv w.
  destruct (executeCommand_all_bounded cs w) as [Hb Hh];
    [exists 0%nat; split; [constructor | done] | done | done |].
  by destruct (undo_times_bounded (length cs) _ Hb) as (Ht & _);
    [rewrite Hh|].
Qed.

(** A [DeleteCommand] object executed twice keeps only the text of its
    second [execute()]: here it is executed on the empty buffer, then
    again after "abc" was typed, and the three [undo()] calls leave "abc"
    in the buffer. *)
Lemma DeleteCommand_executed_twice :
  let w := run_all initial [NewDelete 5; NewType "abc"] in
  text (editor (undo_times 3 (executeCommand w 0))) = "abc".
Proof. reflexivity. Qed.

(** The usage example of the source and the output it documents. *)
Lemma usage_example_output :
  usage_example =
  ["Hello"; "Hello World"; "Hello"; "Hello World"; "Hello"; ""].
Proof. reflexivity. Qed.

End InvokerProperties.

(** ** The login chain *)

Module LoginChainProperties.
Import ChainOfResponsibilityLogin.

Lemma handle_S (depth : nat) (σ : list Handler) (this : nat)
    (r : Request) :
  handle (S depth) σ this r =
  match σ !! this with
  | Some o =>
      let super_handle := AbstractHandler_handle (handle depth σ) o in
      match class o with
      | UserExistsHandler => UserExistsHandler_handle super_handle r
      | PasswordHandler => PasswordHandler_handle super_handle r
      | RoleHandler requiredRole => RoleHandler_handle requiredRole r
      end
  | None => returns r []
  end.
Proof. reflexivity. Qed.

(** *** Depth *)

(** A call that ends within [depth] nested calls ends the same way with
    any larger allowance. *)
Lemma handle_deeper_S (depth : nat) (σ : list Handler) (this : nat)
    (r : Request) :
  completion (handle depth σ this r) <> TooDeep ->
  handle (S depth) σ this r = handle depth σ this r.
Proof.
  revert this r. induction depth as [|depth IH]; intros this r Hend;
    [done|].
  rewrite (handle_S (S depth)), (handle_S depth) in *.
  destruct (σ !! this) as [o|]; [|done].
  assert (forall r', completion (AbstractHandler_handle (handle depth σ) o r')
                     <> TooDeep ->
            AbstractHandler_handle (handle (S depth) σ) o r' =
            AbstractHandler_handle (handle depth σ) o r') as Hsuper.
  { intros r'. unfold AbstractHandler_handle.
    destruct (nextHandler o); [apply IH | done]. }
  simpl in *. destruct (class o); [| |done].
  - unfold UserExistsHandler_handle in *.
    destruct (Get users (username r)); [by apply Hsuper | done].
  - unfold PasswordHandler_handle in *.
    destruct (userData r); [|done].
    destruct (strict_ne _ _); [done | by apply Hsuper].
Qed.

Lemma handle_deeper (depth more : nat) (σ : list Handler) (this : nat)
    (r : Request) :
  completion (handle depth σ this r) <> TooDeep ->
  handle (more + depth) σ this r = handle depth σ this r.
Proof.
  intros Hend. induction more as [|more IH]; [done|].
  change (S more + depth)%nat with (S (more + depth)).
  rewrite handle_deeper_S; [done | by rewrite IH].
Qed.

(** *** Building the chain *)

Lemma build_chain_value :
  build_chain =
  (roleCheck,
   [ {| class := UserExistsHandler; nextHandler := Some passwordCheck |};
     {| class := PasswordHandler; nextHandler := Some roleCheck |};
     {| class := RoleHandler "admin"; nextHandler := None |} ]).
Proof. reflexivity. Qed.

(** C7: [a.setNext(b)] returns [b] and makes [b] the successor of [a],
    leaving the class of [a] and every other handler as they were; so
    [a.setNext(b).setNext(c)] evaluates to [c], makes [c] the successor
    of [b] and, [a] and [b] being two handlers, leaves [b] the successor
    of [a].  The inherited [handle] passes the request it was given to
    the successor and is that call, and without a successor it returns
    with the request as it was and nothing printed. *)
Theorem setNext_returns_argument_and_links (σ : list Handler)
    (a b c : nat) (oa ob o : Handler) (depth : nat) (r : Request) :
  σ !! a = Some oa -> σ !! b = Some ob ->
  let '(r1, σ1) := setNext σ a b in
  let '(r2, σ2) := setNext σ1 r1 c in
  (r1 = b /\
   σ1 !! a = Some {| class := class oa; nextHandler := Some b |} /\
   (forall x, x <> a -> σ1 !! x = σ !! x)) /\
  (r2 = c /\
   (nextHandler <$> σ2 !! b) = Some (Some c) /\
   (a <> b ->
    σ2 !! a = Some {| class := class oa; nextHandler := Some b |} /\
    σ2 !! b = Some {| class := class ob; nextHandler := Some c |})) /\
  AbstractHandler_handle (handle depth σ) o r =
  match nextHandler o with
  | Some next => handle depth σ next r
  | None => returns r []
  end.
Proof.
  intros Ha Hb. unfold setNext.
  assert (forall (τ : list Handler) (i n : nat) (oi : Handler),
            τ !! i = Some oi ->
            alter (fun o => {| class := class o; nextHandler := Some n |})
              i τ !! i
            = Some {| class := class oi; nextHandler := Some n |}) as Hset.
  { intros τ i n oi Hi. by rewrite list_lookup_alter_eq, Hi. }
  split; [|split; [|done]].
  - split; [done|]. split; [by apply Hset|].
    intros x Hx. by rewrite list_lookup_alter_ne.
  - split; [done|]. destruct (decide (a = b)) as [->|Hab].
    + split; [|done].
      erewrite Hset; [done|]. by apply Hset.
    + assert (alter (fun o => {| class := class o;
                                 nextHandler := Some b |}) a σ !! b
              = Some ob) as Hb' by by rewrite list_lookup_alter_ne.
      split; [by erewrite Hset|]. intros _. split.
      * rewrite list_lookup_alter_ne by done. by apply Hset.
      * by apply Hset.
Qed.

Lemma setNext_returns_argument_and_links_witness :
  let σ := [ {| class := UserExistsHandler; nextHandler := None |};
             {| class := PasswordHandler; nextHandler := None |};
             {| class := RoleHandler "admin"; nextHandler := None |} ] in
  let oa := {| class := UserExistsHandler; nextHandler := None |} in
  let ob := {| class := PasswordHandler; nextHandler := None |} in
  let r := new_Request "alice" "1234" in
  let '(r1, σ1) := setNext σ 0 1 in
  let '(r2, σ2) := setNext σ1 r1 2 in
  (r1 = 1%nat /\
   σ1 !! 0%nat = Some {| class := class oa; nextHandler := Some 1%nat |} /\
   (forall x, x <> 0%nat -> σ1 !! x = σ !! x)) /\
  (r2 = 2%nat /\
   (nextHandler <$> σ2 !! 1%nat) = Some (Some 2%nat) /\
   (0%nat <> 1%nat ->
    σ2 !! 0%nat = Some {| class := class oa; nextHandler := Some 1%nat |} /\
    σ2 !! 1%nat = Some {| class := class ob; nextHandler := Some 2%nat |})) /\
  AbstractHandler_handle (handle 2 σ) ob r =
  match nextHandler ob with
  | Some next => handle 2 σ next r
  | None => returns r []
  end.
Proof.
  exact (setNext_returns_argument_and_links
    [ {| class := UserExistsHandler; nextHandler := None |};
      {| class := PasswordHandler; nextHandler := None |};
      {| class := RoleHandler "admin"; nextHandler := None |} ]
    0 1 2
    {| class := UserExistsHandler; nextHandler := None |}
    {| class := PasswordHandler; nextHandler := None |}
    {| class := PasswordHandler; nextHandler := None |}
    2 (new_Request "alice" "1234") eq_refl eq_refl).
Defined.

(** *** The four requests of the source *)

Ltac run_chain :=
  intros more; change 3%nat with (0 + 3)%nat at 1;
  rewrite Nat.add_assoc, Nat.add_0_r;
  rewrite handle_deeper; [by vm_compute | by vm_compute].

Lemma login_charlie more :
  handle (more + 3) chain userExists (new_Request "charlie" "1234") =
  returns (new_Request "charlie" "1234") ["User does not exist!"].
Proof. revert more. run_chain. Qed.

Lemma login_alice_wrongpass more :
  handle (more + 3) chain userExists (new_Request "alice" "wrongpass") =
  returns {| username := "alice"; password := "wrongpass";
             userData := Some (UserEntry "1234" "admin") |}
    ["Incorrect password!"].
Proof. revert more. run_chain. Qed.

Lemma login_bob more :
  handle (more + 3) chain userExists (new_Request "bob" "abcd") =
  returns {| username := "bob"; password := "abcd";
             userData := Some (UserEntry "abcd" "user") |}
    ["Access denied! Role is not valid."].
Proof. revert more. run_chain. Qed.

Lemma login_alice more :
  handle (more + 3) chain userExists (new_Request "alice" "1234") =
  returns {| username := "alice"; password := "1234";
             userData := Some (UserEntry "1234" "admin") |}
    ["User successfully logged in!"].
Proof. revert more. run_chain. Qed.

(** C5: on the chain [userExists.setNext(passwordCheck).setNext(roleCheck)]
    with the required role "admin", whatever the allowed depth from 3 on:
    charlie/1234 ends at the existence check, with no field added to the
    request; alice/wrongpass gets the data of alice attached and ends at
    the password check; bob/abcd gets the data of bob attached and ends
    at the role check; alice/1234 passes the three checks and the
    success line is printed.  Each call returns normally and prints one
    line, that of the check it ended at. *)
Theorem login_chain_scenarios (more : nat) :
  build_chain = (roleCheck, chain) /\
  handle (more + 3) chain userExists (new_Request "charlie" "1234") =
    returns (new_Request "charlie" "1234") ["User does not exist!"] /\
  handle (more + 3) chain userExists (new_Request "alice" "wrongpass") =
    returns {| username := "alice"; password := "wrongpass";
               userData := Some (UserEntry "1234" "admin") |}
      ["Incorrect password!"] /\
  handle (more + 3) chain userExists (new_Request "bob" "abcd") =
    returns {| username := "bob"; password := "abcd";
               userData := Some (UserEntry "abcd" "user") |}
      ["Access denied! Role is not valid."] /\
  handle (more + 3) chain userExists (new_Request "alice" "1234") =
    returns {| username := "alice"; password := "1234";
               userData := Some (UserEntry "1234" "admin") |}
      ["User successfully logged in!"].
Proof.
  split; [done|].
  auto using login_charlie, login_alice_wrongpass, login_bob, login_alice.
Qed.

(** *** Requests without [userData] *)

(** Once [userData] is attached it stays attached, and no handler
    throws. *)
Lemma handle_with_userData (depth : nat) (σ : list Handler) (this : nat)
    (r : Request) :
  is_Some (userData r) ->
  is_Some (userData (request (handle depth σ this r))) /\
  completion (handle depth σ this r) <> ThrowTypeError.
Proof.
  revert this r. induction depth as [|depth IH]; intros this r Hr; [done|].
  rewrite handle_S. destruct (σ !! this) as [o|]; [|done].
  assert (forall r', is_Some (userData r') ->
            is_Some (userData (request
              (AbstractHandler_handle (handle depth σ) o r'))) /\
            completion (AbstractHandler_handle (handle depth σ) o r')
            <> ThrowTypeError) as Hsuper.
  { intros r' Hr'. unfold AbstractHandler_handle.
    destruct (nextHandler o); [by apply IH | done]. }
  simpl. destruct (class o).
  - unfold UserExistsHandler_handle.
    destruct (Get users (username r)); [|by split].
    apply Hsuper. by eexists.
  - unfold PasswordHandler_handle. destruct Hr as [data Hr]. rewrite Hr.
    destruct (strict_ne _ _).
    + simpl. rewrite Hr. by split; [eexists|].
    + apply Hsuper. by eexists.
  - unfold RoleHandler_handle. destruct Hr as [data Hr]. rewrite Hr.
    destruct (strict_ne _ _); simpl; rewrite Hr; by split; [eexists|].
Qed.

(** A call that enters the chain at a [UserExistsHandler] never throws:
    the request goes on only with [userData] attached. *)
Lemma handle_from_UserExistsHandler (depth : nat) (σ : list Handler)
    (head : nat) (o : Handler) (r : Request) :
  σ !! head = Some o -> class o = UserExistsHandler ->
  completion (handle depth σ head r) <> ThrowTypeError.
Proof.
  intros Hhead Hclass. destruct depth as [|depth]; [done|].
  rewrite handle_S, Hhead. simpl. rewrite Hclass.
  unfold UserExistsHandler_handle, AbstractHandler_handle.
  destruct (Get users (username r)); [|done].
  destruct (nextHandler o); [|done].
  by apply handle_with_userData.
Qed.

(** C9: [PasswordHandler.handle] and [RoleHandler.handle], called with a
    request that has no [userData], throw a [TypeError]: nothing is
    printed, the request is as it was.  A call that enters any chain at a
    [UserExistsHandler] does not throw. *)
Theorem handle_without_userData (depth : nat) (σ : list Handler)
    (this head : nat) (o oh : Handler) (r r' : Request) :
  σ !! this = Some o ->
  class o = PasswordHandler \/ (exists role, class o = RoleHandler role) ->
  userData r = None ->
  σ !! head = Some oh -> class oh = UserExistsHandler ->
  handle (S depth) σ this r = throws r /\
  completion (handle depth σ head r') <> ThrowTypeError.
Proof.
  intros Hthis Hclass Hr Hhead Hoh.
  split; [|by eapply handle_from_UserExistsHandler].
  rewrite handle_S, Hthis. simpl.
  destruct Hclass as [->|[role ->]].
  - unfold PasswordHandler_handle. by rewrite Hr.
  - unfold RoleHandler_handle. by rewrite Hr.
Qed.

Lemma handle_without_userData_witness :
  (handle 3 chain passwordCheck (new_Request "alice" "1234") =
     throws (new_Request "alice" "1234") /\
   completion (handle 2 chain userExists (new_Request "bob" "abcd"))
     <> ThrowTypeError) /\
  (handle 3 chain roleCheck (new_Request "alice" "1234") =
     throws (new_Request "alice" "1234") /\
   completion (handle 2 chain userExists (new_Request "bob" "abcd"))
     <> ThrowTypeError).
Proof.
  split.
  - apply (handle_without_userData 2 chain passwordCheck userExists
             {| class := PasswordHandler; nextHandler := Some roleCheck |}
             {| class := UserExistsHandler;
                nextHandler := Some passwordCheck |});
      [reflexivity | by left | reflexivity | reflexivity | reflexivity].
  - apply (handle_without_userData 2 chain roleCheck userExists
             {| class := RoleHandler "admin"; nextHandler := None |}
             {| class := UserExistsHandler;
                nextHandler := Some passwordCheck |});
      [reflexivity | right; by eexists | reflexivity | reflexivity
      | reflexivity].
Defined.

(** *** What the chain writes to the request *)

(** What [users[key]] finds: an entry of the table, or a property that
    the table inherits. *)
Lemma Get_users (key : string) (v : Value) :
  Get users key = Some v <->
  users !! key = Some v \/
  (users !! key = None /\ key ∈ Object_prototype /\ v = Builtin key).
Proof.
  unfold Get. destruct (users !! key) as [entry|].
  - split; [by left | by intros [?|[? _]]].
  - case_bool_decide as Hin.
    + split; [intros [= <-]; by right | by intros [?|(_ & _ & ->)]].
    + split; [done | by intros [?|(_ & ? & _)]].
Qed.

(** No handler writes [username] or [password]; [userData] is either as
    it was, or what [users[username]] found. *)
Lemma handle_frame (depth : nat) (σ : list Handler) (this : nat)
    (r : Request) :
  let r' := request (handle depth σ this r) in
  username r' = username r /\ password r' = password r /\
  (userData r' = userData r \/
   (userData r' = Get users (username r) /\ is_Some (userData r'))).
Proof.
  pose (same := fun (r0 r' : Request) =>
    username r' = username r0 /\ password r' = password r0 /\
    (userData r' = userData r0 \/
     (userData r' = Get users (username r0) /\ is_Some (userData r')))).
  assert (forall r0 lines, same r0 (request (returns r0 lines))) as Hsame
    by (intros; split; [done | split; [done | by left]]).
  change (same r (request (handle depth σ this r))).
  revert this r. induction depth as [|depth IH]; intros this r;
    [apply (Hsame r [])|].
  rewrite handle_S. destruct (σ !! this) as [o|]; [|apply Hsame].
  assert (forall r0, same r0 (request
            (AbstractHandler_handle (handle depth σ) o r0))) as Hsuper.
  { intros r0. unfold AbstractHandler_handle.
    destruct (nextHandler o); [apply IH | apply Hsame]. }
  cbn zeta. destruct (class o).
  - unfold UserExistsHandler_handle.
    destruct (Get users (username r)) as [found|] eqn:Hget;
      [|apply Hsame].
    destruct (Hsuper {| username := username r; password := password r;
                        userData := Some found |}) as (Hu & Hp & Hd).
    simpl in Hu, Hp, Hd. split; [done|]. split; [done|]. right.
    destruct Hd as [Hd|[Hd _]]; rewrite Hd, ?Hget; by split; [|eexists].
  - unfold PasswordHandler_handle.
    destruct (userData r) eqn:Hr; [|apply (Hsame r [])].
    destruct (strict_ne _ _); [apply Hsame | apply Hsuper].
  - unfold RoleHandler_handle.
    destruct (userData r) eqn:Hr; [|apply (Hsame r [])].
    destruct (strict_ne _ _); apply Hsame.
Qed.

(** On the chain of the source, [userData] is written exactly when
    [users[username]] finds something, and with what it finds. *)
Lemma chain_userData (more : nat) (r : Request) :
  userData (request (handle (more + 3) chain userExists r)) =
  match Get users (username r) with
  | Some found => Some found
  | None => userData r
  end.
Proof.
  replace (more + 3)%nat with (S (more + 2)) by lia.
  rewrite handle_S. simpl. unfold UserExistsHandler_handle.
  destruct (Get users (username r)) as [found|]; [|done].
  unfold AbstractHandler_handle; simpl.
  replace (more + 2)%nat with (S (more + 1)) by lia.
  rewrite handle_S. simpl. unfold PasswordHandler_handle; simpl.
  destruct (strict_ne _ _); [done|].
  unfold AbstractHandler_handle; simpl.
  replace (more + 1)%nat with (S more) by lia.
  rewrite handle_S. simpl. unfold RoleHandler_handle; simpl.
  by destruct (strict_ne _ _).
Qed.

(** C10, at the user name "toString": the table has no such user, yet
    [users["toString"]] finds the function inherited from
    [Object.prototype]; [UserExistsHandler] attaches it as [userData] and
    passes the request on, and the chain ends at the password check. *)
Theorem login_toString (more : nat) :
  users !! "toString" = None /\
  handle (more + 3) chain userExists (new_Request "toString" "1234") =
  returns {| username := "toString"; password := "1234";
             userData := Some (Builtin "toString") |}
    ["Incorrect password!"].
Proof. split; [by vm_compute | revert more; run_chain]. Qed.

End LoginChainProperties.

(** ** More on the receiver and the commands *)

Module ReceiverProperties.
Import JSString JSStringFacts CommandTextEditor TextEditorProperties Display.

(** X1: for an integral count above zero, [deleteText] keeps exactly the first
    [length - count] characters of the buffer, none if the count is larger
    than the length; the buffer gets shorter by [count], or empty. *)
Theorem deleteText_keeps_prefix (this : TextEditor) (count : Z) :
  0 < count ->
  text (deleteText this count) =
    String.substring 0 (String.length (text this) - Z.to_nat count)
      (text this) /\
  String.length (text (deleteText this count)) =
    (String.length (text this) - Z.to_nat count)%nat.
Proof.
  intros Hc. split; [by apply deleteText_positive|].
  pose proof (length_deleteText this count) as Hlen.
  unfold relative_index in Hlen.
  destruct (Z.ltb_spec (- count) 0); lia.
Qed.

Lemma deleteText_keeps_prefix_witness :
  text (deleteText {| text := "Hello World" |} 6) =
    String.substring 0 (String.length "Hello World" - Z.to_nat 6)
      "Hello World" /\
  String.length (text (deleteText {| text := "Hello World" |} 6)) =
    (String.length "Hello World" - Z.to_nat 6)%nat.
Proof. apply (deleteText_keeps_prefix {| text := "Hello World" |} 6). lia. Defined.

Lemma deleteText_negative (this : TextEditor) (count : Z) :
  count < 0 ->
  text (deleteText this count) =
    String.substring 0
      (Nat.min (Z.to_nat (- count)) (String.length (text this)))
      (text this).
Proof.
  intros Hc. unfold deleteText; simpl. rewrite slice_prefix. f_equal.
  unfold relative_index. destruct (Z.ltb_spec (- count) 0); lia.
Qed.

(** X2: for a count below zero, [deleteText] does not delete from the end:
    [slice(0, -count)] keeps the first [-count] characters, the whole
    buffer if it is not longer than that. *)
Theorem deleteText_negative_count (this : TextEditor) (count : Z) :
  count < 0 ->
  text (deleteText this count) =
    String.substring 0
      (Nat.min (Z.to_nat (- count)) (String.length (text this)))
      (text this).
Proof. apply deleteText_negative. Qed.

Lemma deleteText_negative_count_witness :
  text (deleteText {| text := "Hello World" |} (-5)) =
    String.substring 0
      (Nat.min (Z.to_nat (- (-5))) (String.length "Hello World"))
      "Hello World".
Proof.
  apply (deleteText_negative_count {| text := "Hello World" |} (-5)). lia.
Defined.

(** X3: whatever the count, [deleteText] only cuts: what it leaves is a
    prefix of the buffer, followed in the buffer by exactly the text that
    [DeleteCommand.execute] saves for the same count; so the buffer never
    gets longer. *)
Theorem deleteText_only_cuts (this : TextEditor) (count : Z) :
  text this =
    text (deleteText this count) +:+ fst (DeleteCommand_execute count this) /\
  (String.length (text (deleteText this count)) <=
   String.length (text this))%nat.
Proof.
  assert (text this =
          text (deleteText this count) +:+
          fst (DeleteCommand_execute count this)) as Hsplit
    by (symmetry; apply slice_partition).
  split; [done|]. apply (f_equal String.length) in Hsplit.
  rewrite length_append in Hsplit. lia.
Qed.

(** X4: the text that [DeleteCommand.execute] saves for an integral count
    above zero has [count] characters, or as many as the buffer has if
    that is fewer. *)
Theorem DeleteCommand_saves_what_is_available (editor : TextEditor)
    (count : Z) :
  0 < count ->
  String.length (fst (DeleteCommand_execute count editor)) =
  Nat.min (Z.to_nat count) (String.length (text editor)).
Proof.
  intros Hc. unfold DeleteCommand_execute; simpl.
  pose proof (slice_partition (text editor) (- count)) as Hsplit.
  apply (f_equal String.length) in Hsplit.
  rewrite length_append in Hsplit.
  pose proof (length_slice_prefix (text editor) (- count)) as Hlen.
  unfold relative_index in Hlen.
  destruct (Z.ltb_spec (- count) 0); lia.
Qed.

Lemma DeleteCommand_saves_what_is_available_witness :
  String.length (fst (DeleteCommand_execute 6 {| text := "Hello" |})) =
  Nat.min (Z.to_nat 6) (String.length "Hello").
Proof.
  apply (DeleteCommand_saves_what_is_available {| text := "Hello" |} 6). lia.
Defined.

(** X5: for every inserted text that is not empty and every buffer,
    [undo()] of a [TypeCommand] right after its [execute()] gives the
    buffer back. *)
Theorem TypeCommand_round_trip (textToAdd : string) (before : TextEditor) :
  textToAdd <> "" ->
  let '(this, after) := Command_execute (new_TypeCommand textToAdd) before in
  text after = text before +:+ textToAdd /\
  Command_undo this after = before.
Proof.
  intros Hne. simpl. split; [done|].
  unfold TypeCommand_undo, TypeCommand_execute. by apply deleteText_addText.
Qed.

Lemma TypeCommand_round_trip_witness :
  let '(this, after) :=
    Command_execute (new_TypeCommand " World") {| text := "Hello" |} in
  text after = "Hello" +:+ " World" /\
  Command_undo this after = {| text := "Hello" |}.
Proof.
  apply (TypeCommand_round_trip " World" {| text := "Hello" |}). done.
Defined.

(** X6: a [DeleteCommand] with a count below zero is undone exactly as
    well: [execute()] keeps the first [-count] characters, saves the rest,
    and [undo()] gives the buffer back. *)
Theorem DeleteCommand_negative_round_trip (before : TextEditor)
    (stale : string) (count : Z) :
  count < 0 ->
  let '(this, after) := Command_execute (DeleteCommand stale count) before in
  text after =
    String.substring 0
      (Nat.min (Z.to_nat (- count)) (String.length (text before)))
      (text before) /\
  Command_undo this after = before.
Proof.
  intros Hc. simpl. split; [by apply deleteText_negative|].
  apply addText_deleteText.
Qed.

Lemma DeleteCommand_negative_round_trip_witness :
  let '(this, after) :=
    Command_execute (DeleteCommand "" (-2)) {| text := "abcdef" |} in
  text after =
    String.substring 0
      (Nat.min (Z.to_nat (- (-2))) (String.length "abcdef")) "abcdef" /\
  Command_undo this after = {| text := "abcdef" |}.
Proof.
  apply (DeleteCommand_negative_round_trip {| text := "abcdef" |} "" (-2)).
  lia.
Defined.

Lemma app_cancel_r (s1 s2 t : string) : s1 +:+ t = s2 +:+ t -> s1 = s2.
Proof.
  revert s2. induction s1 as [|c s1 IH]; intros [|c2 s2] H.
  - done.
  - apply (f_equal String.length) in H.
    rewrite !length_append in H. simpl in H. lia.
  - apply (f_equal String.length) in H.
    rewrite !length_append in H. simpl in H. lia.
  - rewrite !app_cons in H. injection H as -> H. f_equal. by apply IH.
Qed.

(** X7: the line that [showText] prints tells the text: if [showText] on
    two states prints the same line last, the two buffers hold the same
    text. *)
Theorem showText_tells_the_text (w1 w2 : World) :
  last (console (showText w1)) = last (console (showText w2)) ->
  editor w1 = editor w2.
Proof.
  unfold showText; simpl. rewrite !last_snoc. intros H.
  apply (inj Some) in H. apply TextEditor_eq. unfold showText_line in H.
  apply (inj (String.app "Current Text: ")) in H.
  apply (inj (String.app quotation_mark)) in H.
  by apply app_cancel_r in H.
Qed.

Lemma showText_tells_the_text_witness :
  editor (run_new initial (NewType "Hello")) =
  editor (run_new (run_new initial (NewType "He")) (NewType "llo")).
Proof.
  apply (showText_tells_the_text
           (run_new initial (NewType "Hello"))
           (run_new (run_new initial (NewType "He")) (NewType "llo"))).
  reflexivity.
Defined.

End ReceiverProperties.

(** ** More on the invoker *)

Module UndoProperties.
Import JSString JSStringFacts CommandTextEditor TextEditorProperties.
Import InvokerProperties.

(** [invoker.executeCommand(new C(...))] written out: the receiver after
    [execute()], the new object with the fields [execute()] left in it at
    the end of the store, its reference at the end of the history. *)
Lemma run_new_unfold (w : World) (n : NewCommand) :
  run_new w n =
  {| editor := snd (Command_execute (construct n) (editor w));
     objects := objects w ++ [fst (Command_execute (construct n) (editor w))];
     history := history w ++ [length (objects w)];
     console := console w |}.
Proof.
  unfold run_new, alloc, executeCommand, execute; simpl.
  rewrite lookup_app_r, Nat.sub_diag by lia. simpl.
  destruct (Command_execute (construct n) (editor w)) as [this' editor'].
  simpl. f_equal.
  rewrite insert_app_r_alt, Nat.sub_diag by lia. done.
Qed.

Lemma Command_round_trip (n : NewCommand) (e : TextEditor) :
  n <> NewType "" ->
  Command_undo (fst (Command_execute (construct n) e))
    (snd (Command_execute (construct n) e)) = e.
Proof.
  intros Hn. destruct n as [t|k]; simpl.
  - unfold TypeCommand_undo, TypeCommand_execute. apply deleteText_addText.
    intros ->. by apply Hn.
  - apply addText_deleteText.
Qed.

Lemma undo_times_succ (k : nat) (w : World) :
  undo_times (S k) w = undo (undo_times k w).
Proof. revert w. induction k as [|k IH]; intros w; [done|]. apply (IH (undo w)). Qed.

Lemma run_all_undo_all (ns : list NewCommand) (w : World) :
  Forall (fun n => n <> NewType "") ns ->
  let w' := undo_times (length ns) (run_all w ns) in
  editor w' = editor w /\ history w' = history w /\
  console w' = console w /\ objects w `prefix_of` objects w'.
Proof.
  revert w. induction ns as [|n ns IH]; intros w Hns; [by simpl|].
  apply Forall_cons in Hns as [Hn Hns].
  change (length (n :: ns)) with (S (length ns)).
  rewrite undo_times_succ. change (run_all w (n :: ns))
    with (run_all (run_new w n) ns).
  destruct (IH (run_new w n) Hns) as (He & Hh & Hc & Ho).
  set (x := undo_times (length ns) (run_all (run_new w n) ns)) in *.
  rewrite run_new_unfold in He, Hh, Hc, Ho. simpl in He, Hh, Hc, Ho.
  assert (objects x !! length (objects w) =
          Some (fst (Command_execute (construct n) (editor w)))) as Hobj.
  { eapply prefix_lookup_Some; [|done].
    rewrite lookup_app_r, Nat.sub_diag by lia. done. }
  unfold undo. rewrite Hh.
  change (history w ++ [length (objects w)])
    with (array_push (history w) (length (objects w))).
  rewrite array_pop_push, Hobj, He. simpl.
  rewrite Command_round_trip by done.
  repeat split; [done|]. etrans; [|done]. by apply prefix_app_r.
Qed.

(** X8: from any state of the buffer and of the history, executing a
    sequence of new commands through the invoker and then calling
    [undo()] once per command brings back the text, the history and the
    console, provided no [TypeCommand] of the sequence inserts the empty
    text. *)
Theorem undo_reverts_step_by_step (ns : list NewCommand) (w : World) :
  Forall (fun n => n <> NewType "") ns ->
  let w' := undo_times (length ns) (run_all w ns) in
  editor w' = editor w /\ history w' = history w /\ console w' = console w.
Proof.
  intros Hns. destruct (run_all_undo_all ns w Hns) as (? & ? & ? & _).
  done.
Qed.

Lemma undo_reverts_step_by_step_witness :
  let w := run_all initial [NewType "Hello"] in
  let w' := undo_times 2 (run_all w [NewType " World"; NewDelete 6]) in
  editor w' = editor w /\ history w' = history w /\ console w' = console w.
Proof.
  apply (undo_reverts_step_by_step [NewType " World"; NewDelete 6]
           (run_all initial [NewType "Hello"])).
  repeat constructor; done.
Defined.

Lemma string_app_assoc (s t u : string) : (s +:+ t) +:+ u = s +:+ t +:+ u.
Proof.
  induction s as [|c s IH]; [done|]. rewrite !app_cons. by rewrite IH.
Qed.

(** X19: typing several texts one after the other through the invoker,
    from any state, leaves the buffer it started with followed by the
    texts in the order they were typed, and one more history entry per
    text. *)
Theorem typing_appends_in_order (texts : list string) (w : World) :
  text (editor (run_all w (NewType <$> texts))) =
    text (editor w) +:+ foldr String.app "" texts /\
  length (history (run_all w (NewType <$> texts))) =
    (length (history w) + length texts)%nat.
Proof.
  revert w. induction texts as [|t texts IH]; intros w.
  - simpl. rewrite app_empty_r. split; [done | lia].
  - change (run_all w (NewType <$> t :: texts))
      with (run_all (run_new w (NewType t)) (NewType <$> texts)).
    destruct (IH (run_new w (NewType t))) as [Htext Hlen].
    rewrite Htext, Hlen, run_new_unfold. simpl.
    rewrite string_app_assoc, length_app. simpl. split; [done | lia].
Qed.

Lemma undo_times_empty (k : nat) (e : TextEditor) (objs : list Command)
    (lines : list string) :
  undo_times k
    {| editor := e; objects := objs; history := []; console := lines |} =
  {| editor := e; objects := objs; history := [];
     console := lines ++ replicate k "Nothing to undo" |}.
Proof.
  revert lines. induction k as [|k IH]; intros lines; simpl.
  - by rewrite app_nil_r.
  - change (undo {| editor := e; objects := objs; history := [];
                    console := lines |})
      with {| editor := e; objects := objs; history := [];
              console := lines ++ ["Nothing to undo"] |}.
    rewrite IH. by rewrite <- app_assoc.
Qed.

Lemma undo_times_add (j k : nat) (w : World) :
  undo_times (j + k) w = undo_times k (undo_times j w).
Proof. revert w. induction j as [|j IH]; intros w; [done|]. apply IH. Qed.

(** X9: after a run on a fresh buffer, [undo()] called [extra] times more
    than commands were executed leaves the buffer empty and the history
    empty, and prints "Nothing to undo" once per extra call and nothing
    else. *)
Theorem undo_more_than_executed (ns : list NewCommand) (extra : nat) :
  let w := undo_times (length ns + extra) (run_all initial ns) in
  text (editor w) = "" /\ history w = [] /\
  console w = replicate extra "Nothing to undo".
Proof.
  destruct (run_all_bounded ns initial bounded_initial) as (Hb & Hlen & Hc).
  destruct (undo_times_bounded (length ns) (run_all initial ns) Hb)
    as (Ht & Hh & _ & Hc'); [by rewrite Hlen|].
  cbn zeta. rewrite undo_times_add.
  destruct (undo_times (length ns) (run_all initial ns))
    as [e objs h lines] eqn:Hw.
  simpl in Ht, Hh, Hc'. subst h. rewrite undo_times_empty. simpl.
  repeat split; [done|]. by rewrite Hc', Hc.
Qed.

Lemma executeCommand_all_console (cs : list nat) (w : World) :
  console (fold_left executeCommand cs w) = console w.
Proof.
  revert w. induction cs as [|c cs IH]; intros w; [done|]. simpl.
  rewrite IH. unfold executeCommand, execute. simpl.
  destruct (objects w !! c); [|done]. by destruct (Command_execute _ _).
Qed.

(** X10: for command objects created beforehand, each executed through the
    invoker at most once on an empty buffer, calling [undo()] once per
    execution leaves the buffer empty and the history empty. *)
Theorem preallocated_commands_round_trip (objs : list Command)
    (cs : list nat) :
  NoDup cs -> Forall (fun c => (c < length objs)%nat) cs ->
  let w := {| editor := new_TextEditor; objects := objs;
              history := []; console := [] |} in
  let w' := undo_times (length cs) (fold_left executeCommand cs w) in
  text (editor w') = "" /\ history w' = [] /\ console w' = [].
Proof.
  intros Hnd Hv w.
  destruct (executeCommand_all_bounded cs w) as [Hb Hh];
    [exists 0%nat; split; [constructor | done] | done
    | by apply Forall_forall |].
  assert (console (fold_left executeCommand cs w) = []) as Hc
    by by rewrite executeCommand_all_console.
  destruct (undo_times_bounded (length cs) _ Hb) as (Ht & Hh' & _ & Hc');
    [by rewrite Hh|].
  cbn zeta. repeat split; [done..|]. by rewrite Hc', Hc.
Qed.

Lemma preallocated_commands_round_trip_witness :
  let objs := [new_DeleteCommand 5; new_TypeCommand "abc";
               new_TypeCommand ""] in
  let w := {| editor := new_TextEditor; objects := objs;
              history := []; console := [] |} in
  let w' := undo_times 3 (fold_left executeCommand [1; 2; 0]%nat w) in
  text (editor w') = "" /\ history w' = [] /\ console w' = [].
Proof.
  apply (preallocated_commands_round_trip
           [new_DeleteCommand 5; new_TypeCommand "abc"; new_TypeCommand ""]
           [1; 2; 0]%nat).
  - apply (bool_decide_unpack (NoDup [1; 2; 0]%nat)). by vm_compute.
  - simpl. repeat constructor; lia.
Defined.

End UndoProperties.

(** ** More on the login chain *)

Module LoginDecision.
Import ChainOfResponsibilityLogin ChainVariants LoginChainProperties.

(** What [users[key]] evaluates to, case by case. *)
Lemma Get_users_cases (key : string) :
  Get users key =
  if decide (key = "alice") then Some (UserEntry "1234" "admin")
  else if decide (key = "bob") then Some (UserEntry "abcd" "user")
  else if bool_decide (key ∈ Object_prototype) then Some (Builtin key)
  else None.
Proof.
  unfold Get, users.
  destruct (decide (key = "alice")) as [->|Ha]; [done|].
  rewrite lookup_insert_ne by done.
  destruct (decide (key = "bob")) as [->|Hb]; [done|].
  rewrite lookup_insert_ne by done. by rewrite lookup_empty.
Qed.

(** The three handlers of the source's chain composed: the call on the
    head, for any request. *)
Lemma chain_outcome (more : nat) (r : Request) :
  handle (more + 3) chain userExists r =
  match Get users (username r) with
  | None => returns r ["User does not exist!"]
  | Some found =>
      let r' := {| username := username r; password := password r;
                   userData := Some found |} in
      if strict_ne (Value_password found) (password r)
      then returns r' ["Incorrect password!"]
      else if strict_ne (Value_role found) "admin"
           then returns r' ["Access denied! Role is not valid."]
           else returns r' ["User successfully logged in!"]
  end.
Proof.
  replace (more + 3)%nat with (S (more + 2)) by lia.
  rewrite handle_S. simpl. unfold UserExistsHandler_handle.
  destruct (Get users (username r)) as [found|]; [|done].
  unfold AbstractHandler_handle; simpl.
  replace (more + 2)%nat with (S (more + 1)) by lia.
  rewrite handle_S. simpl. unfold PasswordHandler_handle; simpl.
  destruct (strict_ne (Value_password found) (password r)); [done|].
  unfold AbstractHandler_handle; simpl.
  replace (more + 1)%nat with (S more) by lia.
  rewrite handle_S. simpl. unfold RoleHandler_handle; simpl.
  by destruct (strict_ne (Value_role found) "admin").
Qed.

Lemma strict_ne_Some (a b : string) :
  strict_ne (Some a) b = false <-> a = b.
Proof.
  unfold strict_ne. destruct (String.eqb_spec a b); simpl; split; done.
Qed.

(** X11: on the chain of the source, the success line is printed for
    exactly one pair of credentials, alice with 1234; what the request
    carries as [userData] when it comes in makes no difference. *)
Theorem login_succeeds_iff (more : nat) (r : Request) :
  printed (handle (more + 3) chain userExists r) =
    ["User successfully logged in!"] <->
  username r = "alice" /\ password r = "1234".
Proof.
  rewrite chain_outcome, Get_users_cases.
  destruct (decide (username r = "alice")) as [Ha|Ha].
  - cbn [Value_password Value_role].
    destruct (strict_ne (Some "1234") (password r)) eqn:Hp.
    + split; [by intros [=]|]. intros [_ Hpw]. symmetry in Hpw.
      apply strict_ne_Some in Hpw. congruence.
    + apply strict_ne_Some in Hp.
      change (strict_ne (Some "admin") "admin") with false. by split.
  - destruct (decide (username r = "bob")) as [Hb|Hb].
    + cbn [Value_password Value_role].
      change (strict_ne (Some "user") "admin") with true.
      destruct (strict_ne (Some "abcd") (password r));
        (split; [by intros [=] | by intros [? _]]).
    + case_bool_decide; (split; [by intros [=] | by intros [? _]]).
Qed.

Lemma login_succeeds_iff_witness :
  printed (handle 3 chain userExists
             {| username := "alice"; password := "1234";
                userData := Some (UserEntry "x" "user") |}) =
    ["User successfully logged in!"].
Proof.
  apply (login_succeeds_iff 0
           {| username := "alice"; password := "1234";
              userData := Some (UserEntry "x" "user") |}).
  split; reflexivity.
Defined.

(** X12: every call on the head of the source's chain returns normally and
    prints exactly one line, one of the four lines of the three checks. *)
Theorem login_prints_one_line (more : nat) (r : Request) :
  completion (handle (more + 3) chain userExists r) = Normal /\
  exists line,
    printed (handle (more + 3) chain userExists r) = [line] /\
    line ∈ [ "User does not exist!"; "Incorrect password!";
             "Access denied! Role is not valid.";
             "User successfully logged in!" ].
Proof.
  rewrite chain_outcome.
  destruct (Get users (username r)) as [found|];
    [|split; [done | eexists; split; [done | set_solver]]].
  cbn zeta. destruct (strict_ne (Value_password found) (password r));
    [split; [done | eexists; split; [done | set_solver]]|].
  destruct (strict_ne (Value_role found) "admin");
    (split; [done | eexists; split; [done | set_solver]]).
Qed.

(** X13: the chain of the source ends at the existence check exactly for
    the user names that are neither alice, nor bob, nor a property name
    of [Object.prototype]; the request is then left as it came. *)
Theorem login_unknown_user_iff (more : nat) (r : Request) :
  handle (more + 3) chain userExists r = returns r ["User does not exist!"]
  <->
  username r <> "alice" /\ username r <> "bob" /\
  username r ∉ Object_prototype.
Proof.
  rewrite chain_outcome, Get_users_cases.
  destruct (decide (username r = "alice")) as [Ha|Ha].
  { split; [|by intros [? _]]. cbn zeta.
    repeat destruct (strict_ne _ _);
      intros H; by apply (f_equal printed) in H. }
  destruct (decide (username r = "bob")) as [Hb|Hb].
  { split; [|by intros (_ & ? & _)]. cbn zeta.
    repeat destruct (strict_ne _ _);
      intros H; by apply (f_equal printed) in H. }
  case_bool_decide as Hin.
  - split; [|by intros (_ & _ & ?)]. cbn zeta.
    repeat destruct (strict_ne _ _);
      intros H; by apply (f_equal printed) in H.
  - by split.
Qed.

Lemma login_unknown_user_iff_witness :
  handle 3 chain userExists (new_Request "charlie" "1234") =
  returns (new_Request "charlie" "1234") ["User does not exist!"].
Proof.
  apply (login_unknown_user_iff 0 (new_Request "charlie" "1234")).
  split; [done|]. split; [done|].
  apply (bool_decide_unpack ("charlie" ∉ Object_prototype)). by vm_compute.
Defined.

(** X14: a call that enters the source's chain at [passwordCheck] trusts
    the [userData] it is given and never looks at the user name: with a
    [userData] whose password is the request's password, the outcome is
    decided by the role in that [userData] alone. *)
Theorem passwordCheck_trusts_userData (more : nat)
    (name pw role : string) :
  let r := {| username := name; password := pw;
              userData := Some (UserEntry pw role) |} in
  handle (more + 2) chain passwordCheck r =
  returns r [ if bool_decide (role = "admin")
              then "User successfully logged in!"
              else "Access denied! Role is not valid." ].
Proof.
  assert (strict_ne (Some pw) pw = false) as Hpw by by apply strict_ne_Some.
  assert (strict_ne (Some role) "admin" = negb (bool_decide (role = "admin")))
    as Hrole.
  { unfold strict_ne. f_equal.
    destruct (String.eqb_spec role "admin");
      [by rewrite bool_decide_eq_true_2 | by rewrite bool_decide_eq_false_2]. }
  replace (more + 2)%nat with (S (more + 1)) by lia.
  cbn zeta. rewrite handle_S.
  change (chain !! passwordCheck)
    with (Some {| class := PasswordHandler; nextHandler := Some roleCheck |}).
  cbn [class nextHandler]. unfold PasswordHandler_handle.
  cbn [userData password Value_password]. rewrite Hpw.
  unfold AbstractHandler_handle. cbn [nextHandler].
  replace (more + 1)%nat with (S more) by lia. rewrite handle_S.
  change (chain !! roleCheck)
    with (Some {| class := RoleHandler "admin"; nextHandler := None |}).
  cbn [class]. unfold RoleHandler_handle.
  cbn [userData Value_role]. rewrite Hrole.
  by destruct (bool_decide (role = "admin")).
Qed.

(** X15: in any chain, a [TypeError] comes only from a request without
    [userData], and from the first handler called: nothing has been
    printed and the request has not been written. *)
Theorem TypeError_only_without_userData (depth : nat) (σ : list Handler)
    (this : nat) (r : Request) :
  completion (handle depth σ this r) = ThrowTypeError ->
  userData r = None /\ handle depth σ this r = throws r.
Proof.
  destruct depth as [|depth]; [done|].
  rewrite handle_S. destruct (σ !! this) as [o|] eqn:Hthis; [|done].
  simpl. destruct (class o) eqn:Hclass.
  - intros Hthrow. exfalso.
    apply (handle_from_UserExistsHandler (S depth) σ this o r Hthis Hclass).
    by rewrite handle_S, Hthis, Hclass.
  - unfold PasswordHandler_handle.
    destruct (userData r) as [data|] eqn:Hr; [|done].
    destruct (strict_ne _ _); [done|].
    unfold AbstractHandler_handle. destruct (nextHandler o); [|done].
    intros Hthrow. exfalso.
    by apply (handle_with_userData depth σ n r); [rewrite Hr|].
  - unfold RoleHandler_handle.
    destruct (userData r) as [data|]; [|done].
    by destruct (strict_ne _ _).
Qed.

Lemma TypeError_only_without_userData_witness :
  userData (new_Request "alice" "1234") = None /\
  handle 3 chain roleCheck (new_Request "alice" "1234") =
  throws (new_Request "alice" "1234").
Proof.
  apply (TypeError_only_without_userData 3 chain roleCheck
           (new_Request "alice" "1234")).
  reflexivity.
Defined.

(** X16: in any chain, whichever handler is called and however long the
    chain is, the request comes back with the [username] and the
    [password] it had, and with a [userData] that is either the one it had
    or the value of [users[username]]. *)
Theorem handle_writes_only_userData (depth : nat) (σ : list Handler)
    (this : nat) (r : Request) :
  username (request (handle depth σ this r)) = username r /\
  password (request (handle depth σ this r)) = password r /\
  (userData (request (handle depth σ this r)) = userData r \/
   userData (request (handle depth σ this r)) = Get users (username r)).
Proof.
  destruct (handle_frame depth σ this r) as (Hu & Hp & Hd).
  split; [done|]. split; [done|]. destruct Hd as [Hd|[Hd _]]; auto.
Qed.

(** X17: [setNext] keeps the number of handlers and the class of every
    handler, and a second [setNext] on the same handler replaces the
    successor set by the first: a handler has one successor, the last one
    set. *)
Theorem setNext_replaces_successor (σ : list Handler) (a b c : nat) :
  length (snd (setNext σ a b)) = length σ /\
  (class <$> snd (setNext σ a b)) = (class <$> σ) /\
  snd (setNext (snd (setNext σ a b)) a c) = snd (setNext σ a c).
Proof.
  unfold setNext; simpl. split; [apply length_alter|]. split.
  - apply list_eq. intros i. rewrite !list_lookup_fmap.
    destruct (decide (i = a)) as [->|Hne].
    + rewrite list_lookup_alter_eq. by destruct (σ !! a).
    + by rewrite list_lookup_alter_ne.
  - rewrite list_alter_alter_eq. apply list_eq. intros i.
    destruct (decide (i = a)) as [->|Hne].
    + rewrite !list_lookup_alter_eq. by destruct (σ !! a).
    + by rewrite !list_lookup_alter_ne.
Qed.

(** A [UserExistsHandler] and a [PasswordHandler] that are each other's
    successor, called with credentials that pass both checks, call each
    other without end. *)
Lemma cycle_goes_on (σ : list Handler) (a b : nat) (oa ob : Handler)
    (u p : string) (found : Value) :
  σ !! a = Some oa -> class oa = UserExistsHandler ->
  nextHandler oa = Some b ->
  σ !! b = Some ob -> class ob = PasswordHandler ->
  nextHandler ob = Some a ->
  Get users u = Some found -> strict_ne (Value_password found) p = false ->
  forall depth data,
    completion (handle depth σ a
                  {| username := u; password := p; userData := data |})
      = TooDeep /\
    completion (handle depth σ b
                  {| username := u; password := p; userData := Some found |})
      = TooDeep.
Proof.
  intros Ha Hca Hna Hb Hcb Hnb Hget Hpw depth.
  induction depth as [|depth IH]; intros data; [done|].
  rewrite !handle_S, Ha, Hb. cbn zeta. rewrite Hca, Hcb.
  unfold UserExistsHandler_handle, PasswordHandler_handle,
    AbstractHandler_handle.
  cbn [username password userData]. rewrite Hget, Hpw, Hna, Hnb.
  split; [apply (IH data) | apply (IH (Some found))].
Qed.

(** X18: [setNext] accepts a cycle, and [handle] does not detect one: when
    a [UserExistsHandler] and a [PasswordHandler] are each other's
    successor, a request whose user is found and whose password matches
    is passed round and round; the call does not end within any number of
    nested calls. *)
Theorem cyclic_chain_never_returns (σ : list Handler) (a b : nat)
    (oa ob : Handler) (r : Request) (found : Value) (depth : nat) :
  σ !! a = Some oa -> class oa = UserExistsHandler ->
  nextHandler oa = Some b ->
  σ !! b = Some ob -> class ob = PasswordHandler ->
  nextHandler ob = Some a ->
  Get users (username r) = Some found ->
  strict_ne (Value_password found) (password r) = false ->
  completion (handle depth σ a r) = TooDeep.
Proof.
  intros Ha Hca Hna Hb Hcb Hnb Hget Hpw. destruct r as [u p data].
  by destruct (cycle_goes_on σ a b oa ob u p found
                 Ha Hca Hna Hb Hcb Hnb Hget Hpw depth data).
Qed.

Lemma cyclic_chain_never_returns_witness :
  completion (handle 1000 (snd build_cycle) 0 (new_Request "alice" "1234"))
  = TooDeep.
Proof.
  apply (cyclic_chain_never_returns (snd build_cycle) 0 1
           {| class := UserExistsHandler; nextHandler := Some 1%nat |}
           {| class := PasswordHandler; nextHandler := Some 0%nat |}
           (new_Request "alice" "1234") (UserEntry "1234" "admin") 1000);
    reflexivity.
Defined.

End LoginDecision.

(** ** The round trip of a whole run *)

Module RoundTripProperties.
Import JSString JSStringFacts CommandTextEditor TextEditorProperties.
Import InvokerProperties Clients.

(** [execute()] and [undo()] never change the class of an object. *)
Lemma is_DeleteCommand_executeCommand (w : World) (c x : nat) :
  is_DeleteCommand (objects (executeCommand w c)) x =
  is_DeleteCommand (objects w) x.
Proof.
  unfold executeCommand, execute, is_DeleteCommand.
  destruct (objects w !! c) as [this|] eqn:Hc; [|done].
  destruct (Command_execute this (editor w)) as [this' e'] eqn:Hexec.
  simpl. destruct (decide (x = c)) as [->|Hne].
  - rewrite list_lookup_insert_eq by by eapply lookup_lt_Some.
    rewrite Hc. destruct this; simpl in Hexec; by injection Hexec as <- _.
  - by rewrite list_lookup_insert_ne.
Qed.

(** Executing a [TypeCommand] through the invoker keeps the text within
    the journal, also when the history holds the object already: the
    object is written back as it was. *)
Lemma executeCommand_bounded_type (w : World) (c : nat) (t : string) :
  bounded w -> objects w !! c = Some (TypeCommand t) ->
  bounded (executeCommand w c) /\
  history (executeCommand w c) = history w ++ [c] /\
  length (objects (executeCommand w c)) = length (objects w) /\
  console (executeCommand w c) = console w.
Proof.
  intros (n & Hj & Hle) Hc. unfold executeCommand, execute, bounded.
  rewrite Hc. simpl. rewrite list_insert_id by done.
  repeat split. exists (n + String.length t)%nat. split.
  - by eapply journal_type.
  - rewrite length_append. lia.
Qed.

Lemma executeCommand_all_once (objs : list Command) (cs : list nat)
    (w : World) :
  bounded w ->
  (forall x, is_DeleteCommand (objects w) x = is_DeleteCommand objs x) ->
  Forall (fun c => (c < length (objects w))%nat) cs ->
  NoDup (filter (fun c => is_DeleteCommand objs c) cs) ->
  (forall x, x ∈ history w -> is_DeleteCommand objs x -> x ∉ cs) ->
  bounded (fold_left executeCommand cs w) /\
  length (history (fold_left executeCommand cs w)) =
    (length (history w) + length cs)%nat /\
  console (fold_left executeCommand cs w) = console w.
Proof.
  revert w. induction cs as [|c cs IH]; intros w Hb Hcls Hv Hnd Hold.
  { simpl. repeat split; [done | lia]. }
  apply Forall_cons in Hv as [Hc Hv].
  assert (bounded (executeCommand w c) /\
          history (executeCommand w c) = history w ++ [c] /\
          length (objects (executeCommand w c)) = length (objects w) /\
          console (executeCommand w c) = console w) as (Hb' & Hh & Hl & Hcon).
  { destruct (lookup_lt_is_Some_2 _ _ Hc) as [this Hthis].
    destruct this as [t|d k]; [by eapply executeCommand_bounded_type|].
    apply executeCommand_bounded; [done| |done].
    intros Hin. apply (Hold c Hin); [|by left].
    rewrite <- Hcls. unfold is_DeleteCommand. by rewrite Hthis. }
  destruct (IH (executeCommand w c)) as (Hb'' & Hlen & Hcon'); [done|..].
  - intros x. by rewrite is_DeleteCommand_executeCommand.
  - by rewrite Hl.
  - rewrite filter_cons in Hnd. case_decide; [|done].
    by apply NoDup_cons in Hnd as [_ ?].
  - intros x Hx Hdel. rewrite Hh in Hx.
    apply elem_of_app in Hx as [Hx|Hx%list_elem_of_singleton].
    + intros Hin. apply (Hold x Hx Hdel). by right.
    + subst x. rewrite filter_cons in Hnd.
      rewrite decide_True in Hnd by done.
      apply NoDup_cons in Hnd as [Hnot _]. intros Hin. apply Hnot.
      by apply list_elem_of_filter.
  - simpl. repeat split; [done | | congruence].
    rewrite Hlen, Hh, length_app. simpl. lia.
Qed.

(** C1, amended: every sequence of [TypeCommand] and [DeleteCommand]
    objects, of any inserted texts and any counts, executed through the
    invoker on an empty buffer with no [DeleteCommand] object executed
    more than once, and then undone one by one through the invoker,
    leaves the buffer empty; each [undo()] finds a command in the history,
    and the history ends empty.  A [TypeCommand] object may be executed
    any number of times. *)
Theorem execute_once_undo_all (objs : list Command) (cs : list nat) :
  Forall (fun c => (c < length objs)%nat) cs ->
  NoDup (filter (fun c => is_DeleteCommand objs c) cs) ->
  let w := execute_then_undo_all objs cs in
  text (editor w) = "" /\ history w = [] /\ console w = [].
Proof.
  intros Hv Hnd. unfold execute_then_undo_all.
  set (w0 := {| editor := new_TextEditor; objects := objs;
                history := []; console := [] |}).
  destruct (executeCommand_all_once objs cs w0) as (Hb & Hlen & Hcon);
    [exists 0%nat; split; [constructor | done] | done | done | done
    | by intros x Hx%elem_of_nil |].
  destruct (undo_times_bounded (length cs) _ Hb) as (Ht & Hh & _ & Hcon');
    [by rewrite Hlen|].
  cbn zeta. repeat split; [done..|]. by rewrite Hcon', Hcon.
Qed.

Lemma execute_once_undo_all_witness :
  let w := execute_then_undo_all
             [new_TypeCommand "ab"; new_DeleteCommand 0; new_TypeCommand "";
              new_DeleteCommand 7]
             [0; 1; 0; 2; 3; 0]%nat in
  text (editor w) = "" /\ history w = [] /\ console w = [].
Proof.
  apply (execute_once_undo_all
           [new_TypeCommand "ab"; new_DeleteCommand 0; new_TypeCommand "";
            new_DeleteCommand 7]
           [0; 1; 0; 2; 3; 0]%nat).
  - simpl. repeat constructor; lia.
  - apply (bool_decide_unpack (NoDup [1; 3]%nat)). by vm_compute.
Defined.

(** C1 as stated fails when a [DeleteCommand] object is executed twice:
    [d = new DeleteCommand(editor, 5)] executed on the empty buffer, then
    [new TypeCommand(editor, "abc")], then [d] again, which overwrites the
    text [d] had saved; the three [undo()] calls leave "abc". *)
Lemma DeleteCommand_reexecuted_not_empty :
  let w := execute_then_undo_all
             [new_DeleteCommand 5; new_TypeCommand "abc"] [0; 1; 0]%nat in
  Forall (fun c => (c < 2)%nat) [0; 1; 0]%nat /\
  text (editor w) = "abc" /\ text (editor w) <> "".
Proof.
  split; [repeat constructor; lia|]. split; [reflexivity|].
  by vm_compute.
Qed.

End RoundTripProperties.
